(** * alsa_trinkey: the indicator sketch

    A shallow embedding of [alsa_trinkey/alsa_trinkey.ino]: the two
    globals [x] and [neo_brightness], the two palette tables, and the
    body of [loop()], written in a small monad that threads the globals,
    records every call made to the LED driver, and is undefined where the
    sketch reads outside one of its tables. *)

From Stdlib Require Import ZArith String Ascii Lia.
From stdpp Require Import base option list list_numbers.

Local Open Scope Z_scope.

(** ** Machine integers *)

(** Conversion to [int16_t], the type of [neo_brightness]. *)
Definition to_int16 (v : Z) : Z := (v + 32768) mod 65536 - 32768.

(** Conversion to [uint8_t], the parameter type of [setBrightness]. *)
Definition to_uint8 (v : Z) : Z := v mod 256.

(** Range of [long] (and of [int]) on the 32-bit target. *)
Definition LONG_MAX : Z := 2147483647.
Definition LONG_MIN : Z := -2147483648.

(** ** Colors *)

(** Modelled from the spec: a color is "a packed 32-bit RGB(W) value".
    [strip.Color] belongs to the LED driver, which is not part of the
    repository; the packing used here is white, red, green, blue from the
    most significant byte down. *)
Definition Color4 (r g b w : Z) : Z :=
  Z.lor (Z.shiftl w 24) (Z.lor (Z.shiftl r 16) (Z.lor (Z.shiftl g 8) b)).
Definition Color (r g b : Z) : Z := Color4 r g b 0.

Definition greenishwhite : Z := Color4 0 64 0 64.
Definition blueishwhite : Z := Color4 0 0 64 64.
Definition redishwhite : Z := Color4 64 0 0 64.

Definition black : Z := Color 0 0 0.
Definition yellow : Z := Color 255 255 0.
Definition orange : Z := Color 255 140 0.
Definition cyan : Z := Color 0 255 255.
Definition lightcyan : Z := Color 102 205 170.
Definition darkcyan : Z := Color 0 128 128.
Definition lightmagenta : Z := Color 238 130 238.
Definition magenta : Z := Color 255 0 255.
Definition cream : Z := Color 250 250 210.
Definition white : Z := Color 255 255 255.
Definition red : Z := Color 255 0 0.
Definition darkred : Z := Color 139 0 0.
Definition green : Z := Color 0 255 0.
Definition blue : Z := Color 0 0 255.

(** By sample rate: off, 44.1, 48, 88.2, 96, 176, 192, 365, 384, error. *)
Definition sample_cols : list Z :=
  [black; yellow; orange; lightcyan; darkcyan;
   lightmagenta; magenta; cream; white; darkred].

(** By bit depth: off, 16, 24, 32, error. *)
Definition bit_cols : list Z := [black; red; green; blue; darkred].

(** [t[i]] for a C array: defined inside the table only.  The sketch
    performs no bounds check, so a read at any other index is undefined. *)
Definition index (t : list Z) (i : Z) : option Z :=
  if i <? 0 then None else t !! Z.to_nat i.

(** [x % 8] and [x / 8] on [int]: C++ division truncates toward zero and
    the remainder takes the sign of the dividend. *)
Definition bit_index (code : Z) : Z := Z.rem code 8.
Definition rate_index (code : Z) : Z := Z.quot code 8.

(** ** Serial input *)

(** Character classes and the scanning loops used by [toInt] below. *)
Definition isspace (c : ascii) : bool :=
  let n := Z.of_N (N_of_ascii c) in (n =? 32) || ((9 <=? n) && (n <=? 13)).

Definition digit_of (c : ascii) : option Z :=
  let n := Z.of_N (N_of_ascii c) in
  if (48 <=? n) && (n <=? 57) then Some (n - 48) else None.

Fixpoint skip_spaces (s : string) : string :=
  match s with
  | String c r => if isspace c then skip_spaces r else s
  | EmptyString => s
  end.

(** The decimal digits at the front of [s], accumulated onto [acc]. *)
Fixpoint digits (acc : Z) (s : string) : Z :=
  match s with
  | String c r =>
      match digit_of c with
      | Some d => digits (10 * acc + d) r
      | None => acc
      end
  | EmptyString => acc
  end.

(** Modelled from the spec: [String::toInt] is the Arduino core's, not
    part of the repository.  The spec calls it a "permissive
    string-to-int conversion" for which "non-numeric or empty input parses
    as 0"; it is the C library's [atol]: blanks are skipped, one optional
    sign is read, then decimal digits up to the first other character, and
    a value outside [long] saturates. *)
Definition toInt (s : string) : Z :=
  match skip_spaces s with
  | String c r =>
      if Ascii.eqb c "-" then Z.max LONG_MIN (- digits 0 r)
      else if Ascii.eqb c "+" then Z.min LONG_MAX (digits 0 r)
      else Z.min LONG_MAX (digits 0 (String c r))
  | EmptyString => 0
  end.

(** ** Tokens *)

(** Character classes of a token, by enumeration. *)
Definition decimal_digit (c : ascii) : bool :=
  existsb (Ascii.eqb c) ["0"; "1"; "2"; "3"; "4"; "5"; "6"; "7"; "8"; "9"]%char.
Definition blank (c : ascii) : bool :=
  existsb (Ascii.eqb c) [" "; "009"; "010"; "011"; "012"; "013"]%char.
Definition sign (c : ascii) : bool :=
  existsb (Ascii.eqb c) ["+"; "-"]%char.

Fixpoint all_digits (s : string) : bool :=
  match s with
  | String c r => decimal_digit c && all_digits r
  | EmptyString => true
  end.

(** Modelled from the spec: the tokens the serial link is expected to
    carry, "a non-negative decimal integer": one or more decimal digits
    and nothing else. *)
Definition decimal_integer (s : string) : bool :=
  match s with
  | EmptyString => false
  | String _ _ => all_digits s
  end.

(** Does [s] hold a decimal digit anywhere? *)
Fixpoint has_digit (s : string) : bool :=
  match s with
  | String c r => decimal_digit c || has_digit r
  | EmptyString => false
  end.

(** The tokens that begin with a decimal number: a digit, or a sign and
    then a digit, after any number of blanks. *)
Inductive begins_with_number : string -> Prop :=
| number_digit c r :
    decimal_digit c = true -> begins_with_number (String c r)
| number_signed s c r :
    sign s = true -> decimal_digit c = true ->
    begins_with_number (String s (String c r))
| number_blank b r :
    blank b = true -> begins_with_number r -> begins_with_number (String b r).

(** ** The LED driver boundary *)

(** The four driver operations the sketch consumes, with their
    arguments. *)
Inductive call : Type :=
| SetPixelColor (n : Z) (c : Z)
| Fill (c : Z) (first count : Z)
| Show
| SetBrightness (b : Z).

(** Modelled from the spec: the LED driver is an external collaborator.
    It holds a pixel buffer and a brightness level; [show] ("refresh")
    is what makes both visible on the LEDs.  A write to a pixel the strip
    does not have is ignored. *)
Record strip : Type := mkStrip {
  pixels : list Z;
  brightness : Z;
  leds : list Z * Z
}.

(** Modelled from the spec: [setPixel(index, color)] of the driver
    boundary, with 0-based positions. *)
Definition set_pixel (n : Z) (c : Z) (px : list Z) : list Z :=
  if n <? 0 then px else <[Z.to_nat n := c]> px.

(** Modelled from the spec: [fillRange(color, start, count)] of the driver
    boundary, one pixel write per position from [first] on. *)
Definition fill_range (c : Z) (first count : Z) (px : list Z) : list Z :=
  foldl (fun acc n => set_pixel n c acc) px (seqZ first count).

(** Modelled from the spec: the effect of one driver call on the strip;
    only [Show] changes what the LEDs display. *)
Definition drive (s : strip) (op : call) : strip :=
  match op with
  | SetPixelColor n c => mkStrip (set_pixel n c (pixels s)) (brightness s) (leds s)
  | Fill c first count =>
      mkStrip (fill_range c first count (pixels s)) (brightness s) (leds s)
  | Show => mkStrip (pixels s) (brightness s) (pixels s, brightness s)
  | SetBrightness b => mkStrip (pixels s) b (leds s)
  end.

Definition drive_all (s : strip) (ops : list call) : strip := foldl drive s ops.

(** ** The sketch *)

(** The two globals that [loop()] reads and writes. *)
Record globals : Type := mkGlobals {
  x : Z;
  neo_brightness : Z
}.

(** [int x=0;] and [int16_t neo_brightness = 20;] *)
Definition initial : globals := mkGlobals 0 20.

(** What one pass of [loop()] reads from the outside: the string returned
    by [Serial.readString()] when [Serial.available()>0] ([None]
    otherwise) and the two [measure()] results. *)
Record input : Type := mkInput {
  serial : option string;
  touch1 : Z;
  touch2 : Z
}.

(** A computation of the sketch: [None] is undefined behaviour, otherwise
    a result, the globals afterwards and the driver calls made, in
    order. *)
Definition sketch (A : Type) : Type := globals -> option (A * globals * list call).

Definition ret {A} (a : A) : sketch A := fun g => Some (a, g, []).

Definition bind {A B} (m : sketch A) (f : A -> sketch B) : sketch B :=
  fun g =>
    match m g with
    | Some (a, g1, t1) =>
        match f a g1 with
        | Some (b, g2, t2) => Some (b, g2, t1 ++ t2)
        | None => None
        end
    | None => None
    end.

Declare Scope sketch_scope.
Delimit Scope sketch_scope with sketch.
Notation "'let*' v ':=' m 'in' k" := (bind m (fun v => k))
  (at level 10, v name, m at level 100, k at level 200) : sketch_scope.
Notation "m ;; k" := (bind m (fun _ => k))
  (at level 100, k at level 200, right associativity) : sketch_scope.

Definition read_x : sketch Z := fun g => Some (x g, g, []).
Definition write_x (v : Z) : sketch unit :=
  fun g => Some (tt, mkGlobals v (neo_brightness g), []).
Definition read_brightness : sketch Z := fun g => Some (neo_brightness g, g, []).
Definition write_brightness (v : Z) : sketch unit :=
  fun g => Some (tt, mkGlobals (x g) (to_int16 v), []).
Definition emit (op : call) : sketch unit := fun g => Some (tt, g, [op]).
Definition table (t : list Z) (i : Z) : sketch Z :=
  fun g => match index t i with Some c => Some (c, g, []) | None => None end.
Definition when (b : bool) (m : sketch unit) : sketch unit :=
  if b then m else ret tt.

(** The documented range of the brightness, "out of 255". *)
Definition in_range (g : globals) : Prop := 0 <= neo_brightness g <= 255.

Section Sketch.

(** The board's pixel count, a macro of the board package. *)
Variable NUM_NEOPIXEL : Z.

Local Open Scope sketch_scope.

(** The three statements that paint the strip from [x]; [loop()] has them
    at three places. *)
Definition render : sketch unit :=
  let* code := read_x in
  let* c := table bit_cols (bit_index code) in
  emit (SetPixelColor 0 c) ;;
  let* code := read_x in
  let* c := table sample_cols (rate_index code) in
  emit (Fill c 1 NUM_NEOPIXEL) ;;
  emit Show.

(** [setup()]: the serial line, the touch pads and the strip are started,
    and the strip is given the initial brightness and shown. *)
Definition setup : sketch unit :=
  let* b := read_brightness in
  emit (SetBrightness (to_uint8 b)) ;;
  emit Show.

(** [if (Serial.available()>0) { x = Serial.readString().toInt(); ... }]
    [toInt] returns a [long], as wide as the [int] it is stored in. *)
Definition serial_branch (s : option string) : sketch unit :=
  match s with
  | Some tok => write_x (toInt tok) ;; render
  | None => ret tt
  end.

(** [if (touch1 > 500) { ... max(0, neo_brightness-1) ... }] *)
Definition touch1_branch (t : Z) : sketch unit :=
  when (500 <? t)
    (render ;;
     let* b := read_brightness in
     write_brightness (Z.max 0 (b - 1)) ;;
     let* b := read_brightness in
     emit (SetBrightness (to_uint8 b))).

(** [if (touch2 > 500) { ... min(255, neo_brightness+1) ... }] *)
Definition touch2_branch (t : Z) : sketch unit :=
  when (500 <? t)
    (render ;;
     let* b := read_brightness in
     write_brightness (Z.min 255 (b + 1)) ;;
     let* b := read_brightness in
     emit (SetBrightness (to_uint8 b))).

(** One pass of [loop()]; the closing [delay(100)] only spends time. *)
Definition loop (inp : input) : sketch unit :=
  serial_branch (serial inp) ;;
  touch1_branch (touch1 inp) ;;
  touch2_branch (touch2 inp).

(** The first passes of [loop()], one per input: the globals and the
    driver calls after each pass. *)
Fixpoint ticks (inps : list input) (g : globals) : option (list (globals * list call)) :=
  match inps with
  | [] => Some []
  | inp :: rest =>
      match loop inp g with
      | Some (_, g1, tr) =>
          match ticks rest g1 with
          | Some h => Some ((g1, tr) :: h)
          | None => None
          end
      | None => None
      end
  end.

(** The driver calls of one [render] for a stored code, when both table
    reads are defined. *)
Definition paint (code : Z) : option (list call) :=
  match index bit_cols (bit_index code), index sample_cols (rate_index code) with
  | Some c0, Some c1 => Some [SetPixelColor 0 c0; Fill c1 1 NUM_NEOPIXEL; Show]
  | _, _ => None
  end.

(** The code that is in [x] once the serial branch of a pass has run. *)
Definition code_after (inp : input) (g : globals) : Z :=
  match serial inp with
  | Some tok => toInt tok
  | None => x g
  end.

(** [neo_brightness] after each touch branch, for a reading [t]. *)
Definition after_touch1 (t b : Z) : Z :=
  if 500 <? t then to_int16 (Z.max 0 (b - 1)) else b.
Definition after_touch2 (t b : Z) : Z :=
  if 500 <? t then to_int16 (Z.min 255 (b + 1)) else b.

(** The passes of [loop()] for a list of inputs, one after the other as
    the board's main program runs them. *)
Definition passes (inps : list input) : sketch unit :=
  foldr (fun inp rest => loop inp ;; rest) (ret tt) inps.

(** From power-on: the initial globals, [setup()], then the passes. *)
Definition power_on (inps : list input) : option (unit * globals * list call) :=
  (setup ;; passes inps) initial.

(** The pixel colors one [render] of a code leaves on a strip of
    [NUM_NEOPIXEL] pixels. *)
Definition painting (code : Z) : option (list Z) :=
  match index bit_cols (bit_index code), index sample_cols (rate_index code) with
  | Some c0, Some c1 => Some (c0 :: replicate (Z.to_nat NUM_NEOPIXEL - 1) c1)
  | _, _ => None
  end.

(** ** Machine integers: facts *)

Lemma to_int16_small v : -32768 <= v < 32768 -> to_int16 v = v.
Proof. intros Hv. unfold to_int16. rewrite Z.mod_small; lia. Qed.

Lemma to_uint8_small v : 0 <= v < 256 -> to_uint8 v = v.
Proof. intros Hv. unfold to_uint8. apply Z.mod_small. lia. Qed.

(** ** The sketch, pass by pass *)

Lemma render_run g :
  render g = match paint (x g) with
             | Some ops => Some (tt, g, ops)
             | None => None
             end.
Proof.
  unfold render, paint, bind, read_x, table, emit.
  destruct (index bit_cols (bit_index (x g))); [|reflexivity].
  destruct (index sample_cols (rate_index (x g))); reflexivity.
Qed.

Lemma serial_run s g :
  serial_branch s g =
    match s with
    | Some tok =>
        match paint (toInt tok) with
        | Some ops => Some (tt, mkGlobals (toInt tok) (neo_brightness g), ops)
        | None => None
        end
    | None => Some (tt, g, [])
    end.
Proof.
  destruct s as [tok|]; [|reflexivity].
  unfold serial_branch, bind, write_x. rewrite render_run. cbn.
  destruct (paint (toInt tok)); reflexivity.
Qed.

Lemma touch1_run t g :
  touch1_branch t g =
    if 500 <? t then
      match paint (x g) with
      | Some ops =>
          let b := to_int16 (Z.max 0 (neo_brightness g - 1)) in
          Some (tt, mkGlobals (x g) b, ops ++ [SetBrightness (to_uint8 b)])
      | None => None
      end
    else Some (tt, g, []).
Proof.
  unfold touch1_branch, when. destruct (500 <? t); [|reflexivity].
  unfold bind at 1. rewrite render_run.
  destruct (paint (x g)); reflexivity.
Qed.

Lemma touch2_run t g :
  touch2_branch t g =
    if 500 <? t then
      match paint (x g) with
      | Some ops =>
          let b := to_int16 (Z.min 255 (neo_brightness g + 1)) in
          Some (tt, mkGlobals (x g) b, ops ++ [SetBrightness (to_uint8 b)])
      | None => None
      end
    else Some (tt, g, []).
Proof.
  unfold touch2_branch, when. destruct (500 <? t); [|reflexivity].
  unfold bind at 1. rewrite render_run.
  destruct (paint (x g)); reflexivity.
Qed.

(** A pass whose code paints is defined; this is its result. *)
Lemma loop_run inp g ops :
  paint (code_after inp g) = Some ops ->
  let b1 := after_touch1 (touch1 inp) (neo_brightness g) in
  let b2 := after_touch2 (touch2 inp) b1 in
  loop inp g =
    Some (tt, mkGlobals (code_after inp g) b2,
          match serial inp with Some _ => ops | None => [] end ++
          (if 500 <? touch1 inp then ops ++ [SetBrightness (to_uint8 b1)] else []) ++
          (if 500 <? touch2 inp then ops ++ [SetBrightness (to_uint8 b2)] else [])).
Proof.
  destruct inp as [s t1 t2], g as [c b]. unfold code_after, after_touch1, after_touch2.
  cbn [serial touch1 touch2 x neo_brightness]. intros Hp.
  unfold loop, bind. cbn [serial touch1 touch2].
  rewrite serial_run.
  destruct s as [tok|]; cbn [x neo_brightness] in *.
  - rewrite Hp, touch1_run. cbn [x neo_brightness].
    destruct (500 <? t1); rewrite ?Hp, touch2_run; cbn [x neo_brightness];
      destruct (500 <? t2); rewrite ?Hp; cbn; rewrite ?app_nil_r; reflexivity.
  - rewrite touch1_run. cbn [x neo_brightness].
    destruct (500 <? t1); rewrite ?Hp, touch2_run; cbn [x neo_brightness];
      destruct (500 <? t2); rewrite ?Hp; cbn; rewrite ?app_nil_r; reflexivity.
Qed.

(** A pass with nothing on the serial line and no pad touched does
    nothing. *)
Lemma loop_idle inp g :
  serial inp = None -> touch1 inp <= 500 -> touch2 inp <= 500 ->
  loop inp g = Some (tt, g, []).
Proof.
  destruct inp as [s t1 t2]. cbn. intros -> H1 H2.
  apply Z.ltb_ge in H1, H2.
  unfold loop, bind. cbn [serial touch1 touch2].
  rewrite serial_run, touch1_run, H1, touch2_run, H2. reflexivity.
Qed.

(** A pass that renders a code outside the tables is undefined. *)
Lemma loop_undefined inp g :
  paint (code_after inp g) = None ->
  is_Some (serial inp) \/ 500 < touch1 inp \/ 500 < touch2 inp ->
  loop inp g = None.
Proof.
  destruct inp as [s t1 t2], g as [c b]. unfold code_after.
  cbn [serial touch1 touch2 x neo_brightness]. intros Hp Hfire.
  unfold loop, bind. cbn [serial touch1 touch2].
  rewrite serial_run.
  destruct s as [tok|]; cbn [x neo_brightness] in *.
  - rewrite Hp. reflexivity.
  - rewrite touch1_run. cbn [x neo_brightness]. rewrite Hp.
    destruct (500 <? t1) eqn:E1; [reflexivity|].
    rewrite touch2_run. cbn [x neo_brightness]. rewrite Hp.
    destruct (500 <? t2) eqn:E2; [reflexivity|].
    apply Z.ltb_ge in E1, E2.
    destruct Hfire as [[? Hs]|[?|?]]; [discriminate Hs | lia | lia].
Qed.

(** Whatever a defined pass does, these are the globals it leaves. *)
Lemma loop_globals inp g u g' tr :
  loop inp g = Some (u, g', tr) ->
  g' = mkGlobals (code_after inp g)
         (after_touch2 (touch2 inp) (after_touch1 (touch1 inp) (neo_brightness g))).
Proof.
  intros Hl. destruct (paint (code_after inp g)) as [ops|] eqn:Hp.
  - rewrite (loop_run _ _ _ Hp) in Hl. congruence.
  - destruct (serial inp) as [tok|] eqn:Hs.
    { rewrite loop_undefined in Hl; [discriminate|assumption|]. left. eauto. }
    destruct (500 <? touch1 inp) eqn:E1.
    { apply Z.ltb_lt in E1. rewrite loop_undefined in Hl; [discriminate|assumption|tauto]. }
    destruct (500 <? touch2 inp) eqn:E2.
    { apply Z.ltb_lt in E2. rewrite loop_undefined in Hl; [discriminate|assumption|tauto]. }
    pose proof E1 as E1'. pose proof E2 as E2'.
    apply Z.ltb_ge in E1', E2'. rewrite loop_idle in Hl by assumption.
    unfold code_after, after_touch1, after_touch2. rewrite Hs, E1, E2.
    destruct g. cbn. congruence.
Qed.

(** ** Brightness *)

Lemma initial_in_range : in_range initial.
Proof. unfold in_range, initial. cbn. lia. Qed.

Lemma after_touch1_clamped t b :
  0 <= b <= 255 ->
  after_touch1 t b = (if 500 <? t then Z.max 0 (b - 1) else b) /\
  0 <= after_touch1 t b <= 255.
Proof.
  intros Hb. unfold after_touch1. destruct (500 <? t); [|lia].
  rewrite to_int16_small by lia. lia.
Qed.

Lemma after_touch2_clamped t b :
  0 <= b <= 255 ->
  after_touch2 t b = (if 500 <? t then Z.min 255 (b + 1) else b) /\
  0 <= after_touch2 t b <= 255.
Proof.
  intros Hb. unfold after_touch2. destruct (500 <? t); [|lia].
  rewrite to_int16_small by lia. lia.
Qed.

Lemma loop_in_range inp g u g' tr :
  in_range g -> loop inp g = Some (u, g', tr) -> in_range g'.
Proof.
  unfold in_range. intros Hb Hl. apply loop_globals in Hl. subst g'. cbn.
  destruct (after_touch1_clamped (touch1 inp) _ Hb) as [_ H1].
  destruct (after_touch2_clamped (touch2 inp) _ H1) as [_ H2]. exact H2.
Qed.

Lemma ticks_in_range inps : forall g hist,
  in_range g -> ticks inps g = Some hist ->
  Forall (fun p => in_range (fst p)) hist.
Proof.
  induction inps as [|inp rest IH]; intros g hist Hg Ht; cbn in Ht.
  - injection Ht as <-. constructor.
  - destruct (loop inp g) as [[[u g1] tr]|] eqn:Hl; [|discriminate].
    destruct (ticks rest g1) as [h|] eqn:Hr; [|discriminate].
    injection Ht as <-.
    assert (in_range g1) as Hg1 by (eapply loop_in_range; eassumption).
    constructor; [exact Hg1|]. eapply IH; eassumption.
Qed.

(** With a code in [x] that paints, any sequence of touch readings alone
    is a defined run. *)
Lemma ticks_touch_defined inps : forall g,
  is_Some (paint (x g)) -> Forall (fun inp => serial inp = None) inps ->
  is_Some (ticks inps g).
Proof.
  induction inps as [|inp rest IH]; intros g [ops Hp] Hall; cbn; [eauto|].
  inversion Hall as [|? ? Hs Hrest]; subst.
  assert (code_after inp g = x g) as Hc by (unfold code_after; rewrite Hs; reflexivity).
  rewrite (loop_run inp g ops) by (rewrite Hc; exact Hp). cbv zeta.
  match goal with |- context [ticks rest ?g1] =>
    destruct (IH g1) as [h Hh]; [cbn; rewrite Hc, Hp; eauto | exact Hrest |]
  end.
  rewrite Hh. eauto.
Qed.

(** C1: whatever the touch readings and serial tokens, the brightness is
    in [0,255] after every pass of the loop that starts in that range
    (and a run of touch readings alone, on a code that paints, is always
    defined); the decrement of the first touch branch stops at 0 and the
    increment of the second stops at 255; from brightness 0, a pass with
    touch1 = 600 (and the second pad not touched) leaves the brightness
    at 0. *)
Theorem brightness_stays_in_range g :
  in_range g ->
  (forall inps hist, ticks inps g = Some hist ->
     Forall (fun p => in_range (fst p)) hist) /\
  (forall inps, is_Some (paint (x g)) ->
     Forall (fun inp => serial inp = None) inps -> is_Some (ticks inps g)) /\
  (forall t u g' tr, 500 < t -> touch1_branch t g = Some (u, g', tr) ->
     neo_brightness g' = Z.max 0 (neo_brightness g - 1)) /\
  (forall t u g' tr, 500 < t -> touch2_branch t g = Some (u, g', tr) ->
     neo_brightness g' = Z.min 255 (neo_brightness g + 1)) /\
  (forall inp u g' tr,
     neo_brightness g = 0 -> touch1 inp = 600 -> touch2 inp <= 500 ->
     loop inp g = Some (u, g', tr) -> neo_brightness g' = 0).
Proof.
  intros Hg. split; [|split]; [| |repeat split].
  - intros inps hist Ht. eapply ticks_in_range; eassumption.
  - intros inps Hp Hall. apply ticks_touch_defined; assumption.
  - intros t u g' tr Ht Hrun. rewrite touch1_run in Hrun.
    apply Z.ltb_lt in Ht. rewrite Ht in Hrun.
    destruct (paint (x g)); [|discriminate]. cbn in Hrun.
    injection Hrun as _ <- _. cbn. apply to_int16_small. unfold in_range in Hg. lia.
  - intros t u g' tr Ht Hrun. rewrite touch2_run in Hrun.
    apply Z.ltb_lt in Ht. rewrite Ht in Hrun.
    destruct (paint (x g)); [|discriminate]. cbn in Hrun.
    injection Hrun as _ <- _. cbn. apply to_int16_small. unfold in_range in Hg. lia.
  - intros inp u g' tr Hb H1 H2 Hl. apply loop_globals in Hl. subst g'. cbn.
    rewrite Hb, H1. apply Z.ltb_ge in H2. unfold after_touch2. rewrite H2.
    reflexivity.
Qed.

(** C2 (amended): when both readings exceed 500 in one pass, the
    brightness after the pass equals the brightness before it for every
    starting value in [1,255]; from 0 the decrement is absorbed by the
    floor and the pass ends at 1. *)
Theorem both_pads_net_brightness inp g u g' tr :
  500 < touch1 inp -> 500 < touch2 inp ->
  loop inp g = Some (u, g', tr) ->
  (1 <= neo_brightness g <= 255 -> neo_brightness g' = neo_brightness g) /\
  (neo_brightness g = 0 -> neo_brightness g' = 1).
Proof.
  intros H1 H2 Hl. apply loop_globals in Hl. subst g'. cbn.
  apply Z.ltb_lt in H1, H2. unfold after_touch1, after_touch2. rewrite H1, H2.
  split; intros Hb.
  - rewrite (to_int16_small (Z.max 0 _)) by lia. rewrite to_int16_small by lia. lia.
  - rewrite Hb. reflexivity.
Qed.

(** ** The palettes *)

Lemma index_outside t i : i < 0 \/ Z.of_nat (length t) <= i -> index t i = None.
Proof.
  intros Hi. unfold index. destruct (i <? 0) eqn:E; [reflexivity|].
  apply Z.ltb_ge in E. apply lookup_ge_None. lia.
Qed.

Lemma index_is_Some t i : is_Some (index t i) <-> 0 <= i < Z.of_nat (length t).
Proof.
  split.
  - intros [c Hc]. destruct (Z_lt_dec i 0) as [Hn|Hn].
    { rewrite index_outside in Hc by lia. discriminate. }
    destruct (Z_le_dec (Z.of_nat (length t)) i) as [Hl|Hl].
    { rewrite index_outside in Hc by lia. discriminate. }
    lia.
  - intros Hi. unfold index. destruct (i <? 0) eqn:E; [apply Z.ltb_lt in E; lia|].
    apply lookup_lt_is_Some. lia.
Qed.

(** C3 (amended): for every code >= 0 the bit-depth index is code mod 8
    and lies in [0,7]; the lookup in the 5-entry [bit_cols] is defined
    exactly for the indices 0-4, index 4 being the sentinel [darkred];
    at the indices 5-7 the read falls outside the table and [render] is
    undefined: no sentinel is substituted. *)
Theorem bit_index_lookup code :
  0 <= code ->
  bit_index code = code mod 8 /\
  0 <= bit_index code <= 7 /\
  (is_Some (index bit_cols (bit_index code)) <-> bit_index code <= 4) /\
  (bit_index code = 4 -> index bit_cols (bit_index code) = Some darkred) /\
  (5 <= bit_index code ->
     index bit_cols (bit_index code) = None /\
     forall b, render (mkGlobals code b) = None).
Proof.
  intros Hc. unfold bit_index. rewrite Z.rem_mod_nonneg by lia.
  pose proof (Z.mod_pos_bound code 8 ltac:(lia)) as Hm.
  repeat split; try lia.
  - intros Hs. apply index_is_Some in Hs. cbn in Hs. lia.
  - intros Hs. apply index_is_Some. cbn. lia.
  - intros ->. reflexivity.
  - apply index_outside. cbn. lia.
  - intros b. rewrite render_run. unfold paint, bit_index. cbn [x].
    rewrite Z.rem_mod_nonneg by lia.
    rewrite (index_outside bit_cols) by (cbn; lia). reflexivity.
Qed.

(** C4 (amended): for every code >= 0 the sample-rate index is code / 8;
    the lookup in the 10-entry [sample_cols] is defined exactly for the
    indices 0-9, index 9 being the sentinel [darkred]; at every index
    >= 10 the read falls outside the table: no sentinel is substituted. *)
Theorem rate_index_lookup code :
  0 <= code ->
  rate_index code = code / 8 /\
  0 <= rate_index code /\
  (is_Some (index sample_cols (rate_index code)) <-> rate_index code <= 9) /\
  (rate_index code = 9 -> index sample_cols (rate_index code) = Some darkred) /\
  (10 <= rate_index code ->
     index sample_cols (rate_index code) = None /\
     forall b, render (mkGlobals code b) = None).
Proof.
  intros Hc. unfold rate_index. rewrite Z.quot_div_nonneg by lia.
  pose proof (Z.div_pos code 8 Hc ltac:(lia)) as Hd.
  repeat split; try lia.
  - intros Hs. apply index_is_Some in Hs. cbn in Hs. lia.
  - intros Hs. apply index_is_Some. cbn. lia.
  - intros ->. reflexivity.
  - apply index_outside. cbn. lia.
  - intros b. rewrite render_run. unfold paint, rate_index. cbn [x].
    rewrite Z.quot_div_nonneg by lia.
    rewrite (index_outside sample_cols) by (cbn; lia).
    destruct (index bit_cols _); reflexivity.
Qed.

(** ** The strip *)

Lemma set_pixel_length n c px : length (set_pixel n c px) = length px.
Proof. unfold set_pixel. destruct (n <? 0); [reflexivity|apply length_insert]. Qed.

Lemma set_pixel_lookup n c px (i : nat) :
  set_pixel n c px !! i =
    if bool_decide (n = Z.of_nat i /\ (i < length px)%nat) then Some c else px !! i.
Proof.
  unfold set_pixel. destruct (n <? 0) eqn:E.
  - apply Z.ltb_lt in E. case_bool_decide; [lia|reflexivity].
  - apply Z.ltb_ge in E. rewrite list_lookup_insert.
    case_decide; case_bool_decide; try reflexivity; lia.
Qed.

Lemma writes_length c ns : forall px,
  length (foldl (fun acc n => set_pixel n c acc) px ns) = length px.
Proof.
  induction ns as [|n ns IH]; intros px; cbn; [reflexivity|].
  rewrite IH. apply set_pixel_length.
Qed.

(** Writing one color at a list of positions: a position that is written
    holds the color, every other pixel is as before. *)
Lemma writes_lookup c ns : forall px (i : nat),
  foldl (fun acc n => set_pixel n c acc) px ns !! i =
    if bool_decide (Z.of_nat i ∈ ns /\ (i < length px)%nat) then Some c else px !! i.
Proof.
  induction ns as [|n ns IH]; intros px i; cbn.
  - case_bool_decide as H; [|reflexivity]. destruct H as [H _]. inversion H.
  - rewrite IH, set_pixel_length, set_pixel_lookup.
    pose proof (elem_of_cons ns (Z.of_nat i) n) as Hcons.
    repeat case_bool_decide; try reflexivity; exfalso; rewrite Hcons in *;
      intuition (try lia).
Qed.

Lemma fill_range_length c first count px :
  length (fill_range c first count px) = length px.
Proof. apply writes_length. Qed.

Lemma fill_range_lookup c first count px (i : nat) :
  fill_range c first count px !! i =
    if bool_decide (first <= Z.of_nat i < first + count /\ (i < length px)%nat)
    then Some c else px !! i.
Proof.
  unfold fill_range. rewrite writes_lookup.
  repeat case_bool_decide; try reflexivity; exfalso;
    rewrite elem_of_seqZ in *; tauto.
Qed.

(** Painting over a painted strip changes no pixel. *)
Lemma repaint_pixels c0 c1 n px :
  fill_range c1 1 n (set_pixel 0 c0 (fill_range c1 1 n (set_pixel 0 c0 px))) =
  fill_range c1 1 n (set_pixel 0 c0 px).
Proof.
  apply list_eq. intros i.
  rewrite !fill_range_lookup, !set_pixel_lookup.
  rewrite !set_pixel_length, !fill_range_length, !set_pixel_length.
  rewrite fill_range_lookup, set_pixel_lookup, set_pixel_length.
  repeat case_bool_decide; try reflexivity; exfalso; lia.
Qed.

(** On a strip of [NUM_NEOPIXEL] pixels, painting leaves the first color
    on pixel 0 and the second on all the others. *)
Lemma painted_pixels c0 c1 px :
  0 < NUM_NEOPIXEL -> length px = Z.to_nat NUM_NEOPIXEL ->
  fill_range c1 1 NUM_NEOPIXEL (set_pixel 0 c0 px) =
  c0 :: replicate (Z.to_nat NUM_NEOPIXEL - 1) c1.
Proof.
  intros Hn Hlen. apply list_eq. intros i.
  rewrite fill_range_lookup, set_pixel_lookup, set_pixel_length.
  destruct i as [|i]; cbn [lookup list_lookup].
  - case_bool_decide; [lia|]. case_bool_decide; [reflexivity|lia].
  - case_bool_decide.
    + symmetry. apply lookup_replicate_2. lia.
    + case_bool_decide; [lia|].
      rewrite (lookup_ge_None_2 px (S i)) by lia.
      symmetry. apply lookup_replicate_None. lia.
Qed.

(** C5: the render step is idempotent.  For any stored code and any
    driver state, a defined render leaves the globals as they were, and
    rendering twice in a row leaves the driver (pixel buffer, brightness
    level and what the LEDs show) exactly as rendering once does. *)
Theorem render_idempotent g u g' ops st :
  render g = Some (u, g', ops) ->
  g' = g /\
  (render ;; render) g = Some (tt, g, ops ++ ops) /\
  drive_all st (ops ++ ops) = drive_all st ops /\
  leds (drive_all st (ops ++ ops)) = leds (drive_all st ops).
Proof.
  intros Hr. pose proof Hr as Hr'. rewrite render_run in Hr'.
  destruct (paint (x g)) as [ops'|] eqn:Hp; [|discriminate].
  injection Hr' as _ <- <-. split; [reflexivity|]. split.
  { unfold bind. rewrite Hr. cbv beta iota. rewrite Hr. destruct u. reflexivity. }
  assert (drive_all st (ops' ++ ops') = drive_all st ops') as Heq.
  { unfold paint in Hp.
    destruct (index bit_cols _) as [c0|]; [|discriminate].
    destruct (index sample_cols _) as [c1|]; [|discriminate].
    injection Hp as <-. unfold drive_all.
    cbn [app foldl drive pixels brightness leds].
    rewrite repaint_pixels. reflexivity. }
  split; [exact Heq|]. rewrite Heq. reflexivity.
Qed.

(** ** Scenarios *)

Lemma dim_step inp g ops b' :
  serial inp = None -> 500 < touch1 inp -> touch2 inp <= 500 ->
  paint (x g) = Some ops ->
  neo_brightness g = b' + 1 -> 0 <= b' < 255 ->
  loop inp g = Some (tt, mkGlobals (x g) b', ops ++ [SetBrightness b']).
Proof.
  intros Hs H1 H2 Hp Hb Hb'.
  assert (code_after inp g = x g) as Hc by (unfold code_after; rewrite Hs; reflexivity).
  rewrite (loop_run inp g ops) by (rewrite Hc; exact Hp).
  apply Z.ltb_lt in H1. apply Z.ltb_ge in H2.
  unfold after_touch1, after_touch2. rewrite Hs, Hc, H1, H2, Hb.
  rewrite to_int16_small by lia.
  replace (Z.max 0 (b' + 1 - 1)) with b' by lia.
  rewrite to_uint8_small by lia. cbn. rewrite app_nil_r. reflexivity.
Qed.

(** C6: with touch1 = 600 on five consecutive passes, touch2 not above
    the threshold and nothing on the serial line, a brightness of 20 goes
    down by one per pass, to 19, 18, 17, 16 and 15, and every one of the
    five passes ends with a [setBrightness] call carrying the new value. *)
Theorem five_ticks_dim_to_15 g ops t2 :
  neo_brightness g = 20 -> paint (x g) = Some ops -> t2 <= 500 ->
  ticks (replicate 5 (mkInput None 600 t2)) g =
    Some [ (mkGlobals (x g) 19, ops ++ [SetBrightness 19]);
           (mkGlobals (x g) 18, ops ++ [SetBrightness 18]);
           (mkGlobals (x g) 17, ops ++ [SetBrightness 17]);
           (mkGlobals (x g) 16, ops ++ [SetBrightness 16]);
           (mkGlobals (x g) 15, ops ++ [SetBrightness 15]) ].
Proof.
  intros Hb Hp Ht. cbn [replicate ticks].
  rewrite (dim_step _ g ops 19) by (cbn; first [reflexivity | lia | assumption]).
  rewrite (dim_step _ _ ops 18) by (cbn; first [reflexivity | lia | assumption]).
  rewrite (dim_step _ _ ops 17) by (cbn; first [reflexivity | lia | assumption]).
  rewrite (dim_step _ _ ops 16) by (cbn; first [reflexivity | lia | assumption]).
  rewrite (dim_step _ _ ops 15) by (cbn; first [reflexivity | lia | assumption]).
  reflexivity.
Qed.

(** C7: the token "17" decodes to 17, whose bit index is 17 mod 8 = 1
    and whose rate index is 17 / 8 = 2; the render that follows sets
    pixel 0 to [red] = [bit_cols[1]] and fills from pixel 1 on with
    [orange] = [sample_cols[2]], so that a strip of [NUM_NEOPIXEL] pixels
    shows red on pixel 0 and orange on all the others. *)
Theorem token_17_red_orange g st :
  0 < NUM_NEOPIXEL -> length (pixels st) = Z.to_nat NUM_NEOPIXEL ->
  toInt "17" = 17 /\ bit_index 17 = 1 /\ rate_index 17 = 2 /\
  index bit_cols 1 = Some red /\ index sample_cols 2 = Some orange /\
  serial_branch (Some "17"%string) g =
    Some (tt, mkGlobals 17 (neo_brightness g),
          [SetPixelColor 0 red; Fill orange 1 NUM_NEOPIXEL; Show]) /\
  leds (drive_all st [SetPixelColor 0 red; Fill orange 1 NUM_NEOPIXEL; Show]) =
    (red :: replicate (Z.to_nat NUM_NEOPIXEL - 1) orange, brightness st).
Proof.
  intros Hn Hlen. repeat split.
  unfold drive_all. cbn [foldl drive pixels brightness leds].
  rewrite painted_pixels by assumption. reflexivity.
Qed.

(** ** Decoding *)

(** The conversion is permissive: it stops at the first character that
    is not a digit, and saturates. *)
Lemma toInt_examples :
  toInt "17" = 17 /\ toInt "  +12abc" = 12 /\ toInt "-5" = -5 /\
  toInt "abc" = 0 /\ toInt "" = 0 /\ toInt "99999999999" = LONG_MAX.
Proof. repeat split. Qed.

Lemma isspace_blank c : isspace c = blank c.
Proof. destruct c as [[] [] [] [] [] [] [] []]; reflexivity. Qed.

Lemma digit_of_decimal c d : digit_of c = Some d -> decimal_digit c = true.
Proof.
  destruct c as [[] [] [] [] [] [] [] []]; intros H;
    first [reflexivity | discriminate H].
Qed.

Lemma eqb_sign c : Ascii.eqb c "+" = true \/ Ascii.eqb c "-" = true -> sign c = true.
Proof. intros [H|H]; apply Ascii.eqb_eq in H; subst c; reflexivity. Qed.

(** The digit loop adds nothing when the text does not start with a
    digit. *)
Lemma digits_stop s c r :
  sign s = true -> ~ begins_with_number (String s (String c r)) ->
  digits 0 (String c r) = 0.
Proof.
  intros Hs Hn. cbn. destruct (digit_of c) as [d|] eqn:Ed; [|reflexivity].
  exfalso. apply Hn. apply number_signed; [exact Hs|].
  eapply digit_of_decimal. exact Ed.
Qed.

(** A token that does not begin with a number converts to 0. *)
Lemma toInt_no_number tok : ~ begins_with_number tok -> toInt tok = 0.
Proof.
  induction tok as [|c r IH]; intros Hn; [reflexivity|].
  unfold toInt. cbn [skip_spaces]. destruct (isspace c) eqn:Es.
  { change (toInt r = 0). apply IH. intros H. apply Hn.
    apply number_blank; [rewrite <- isspace_blank; exact Es|exact H]. }
  destruct (Ascii.eqb c "-") eqn:Em.
  { destruct r as [|d r']; [reflexivity|].
    rewrite (digits_stop c d r'); [reflexivity|apply eqb_sign; tauto|exact Hn]. }
  destruct (Ascii.eqb c "+") eqn:Ep.
  { destruct r as [|d r']; [reflexivity|].
    rewrite (digits_stop c d r'); [reflexivity|apply eqb_sign; tauto|exact Hn]. }
  cbn [digits]. destruct (digit_of c) as [d|] eqn:Ed; [|reflexivity].
  exfalso. apply Hn. apply number_digit. eapply digit_of_decimal. exact Ed.
Qed.

(** A token without any decimal digit does not begin with a number. *)
Lemma no_digit_no_number tok : has_digit tok = false -> ~ begins_with_number tok.
Proof.
  intros Hd Hn.
  induction Hn as [c r Hc|s c r Hs Hc|b r Hb Hn IH]; cbn [has_digit] in Hd.
  - rewrite Hc in Hd. discriminate Hd.
  - rewrite Hc, orb_true_r in Hd. discriminate Hd.
  - apply IH. apply orb_false_elim in Hd. tauto.
Qed.

(** C8 (amended): a token that does not begin with a decimal number
    (blanks, then an optional sign, then a digit), which every token
    without a digit and the empty token are, decodes to 0 without any
    error: the serial branch is defined, stores 0 in [x] and renders code
    0, that is black on pixel 0 and black on the others. *)
Theorem token_without_number_decodes_to_zero tok g :
  (has_digit tok = false -> ~ begins_with_number tok) /\
  (~ begins_with_number tok ->
   toInt tok = 0 /\
   serial_branch (Some tok) g =
     Some (tt, mkGlobals 0 (neo_brightness g),
           [SetPixelColor 0 black; Fill black 1 NUM_NEOPIXEL; Show])).
Proof.
  split; [apply no_digit_no_number|].
  intros H. apply toInt_no_number in H. split; [exact H|].
  rewrite serial_run, H. reflexivity.
Qed.

Lemma negative_code_unpaintable code : code < 0 -> paint code = None.
Proof.
  intros Hc. unfold paint.
  destruct (Z.eq_dec (Z.rem code 8) 0) as [Hr|Hr].
  - rewrite (index_outside sample_cols).
    + destruct (index bit_cols _); reflexivity.
    + left. unfold rate_index.
      pose proof (Z.quot_rem' code 8) as Hq. rewrite Hr in Hq. lia.
  - rewrite (index_outside bit_cols); [reflexivity|].
    left. unfold bit_index.
    pose proof (Z.rem_nonpos code 8 ltac:(lia) ltac:(lia)). lia.
Qed.

(** C9: the token "-5" decodes to -5, the serial branch stores it in [x]
    unchecked, and [x % 8] is then -5, below 0: the bit-depth index is
    outside [0,7] and outside [bit_cols], so the read is undefined.
    Nothing keeps codes non-negative: every token that decodes below 0
    leads to a read outside a table. *)
Theorem negative_token_escapes_bit_cols g :
  toInt "-5" = -5 /\
  write_x (toInt "-5") g = Some (tt, mkGlobals (-5) (neo_brightness g), []) /\
  bit_index (-5) = -5 /\
  ~ (0 <= bit_index (toInt "-5") <= 7) /\
  index bit_cols (bit_index (toInt "-5")) = None /\
  serial_branch (Some "-5"%string) g = None /\
  (forall tok, toInt tok < 0 ->
     bit_index (toInt tok) <= 0 /\ serial_branch (Some tok) g = None).
Proof.
  do 3 (split; [reflexivity|]).
  split; [vm_compute; intros [H _]; apply H; reflexivity|].
  do 2 (split; [reflexivity|]).
  intros tok Ht. split.
  - unfold bit_index. apply Z.rem_nonpos; lia.
  - rewrite serial_run, negative_code_unpaintable by assumption. reflexivity.
Qed.

(** C10: single writers.  The serial branch leaves [neo_brightness] as it
    was; the two touch branches leave [x] as it was; a pass changes [x]
    only when serial data was available; and a pass without serial data
    and with both readings at or below 500 changes neither global and
    makes no driver call. *)
Theorem single_writer_frame inp g :
  (forall u g' tr, serial_branch (serial inp) g = Some (u, g', tr) ->
     neo_brightness g' = neo_brightness g) /\
  (forall u g' tr, touch1_branch (touch1 inp) g = Some (u, g', tr) -> x g' = x g) /\
  (forall u g' tr, touch2_branch (touch2 inp) g = Some (u, g', tr) -> x g' = x g) /\
  (forall u g' tr, loop inp g = Some (u, g', tr) -> x g' <> x g ->
     is_Some (serial inp)) /\
  (serial inp = None -> touch1 inp <= 500 -> touch2 inp <= 500 ->
     loop inp g = Some (tt, g, [])).
Proof.
  repeat split.
  - intros u g' tr H. rewrite serial_run in H.
    destruct (serial inp) as [tok|].
    + destruct (paint (toInt tok)); [|discriminate]. injection H as _ <- _. reflexivity.
    + injection H as _ <- _. reflexivity.
  - intros u g' tr H. rewrite touch1_run in H.
    destruct (500 <? touch1 inp).
    + destruct (paint (x g)); [|discriminate]. injection H as _ <- _. reflexivity.
    + injection H as _ <- _. reflexivity.
  - intros u g' tr H. rewrite touch2_run in H.
    destruct (500 <? touch2 inp).
    + destruct (paint (x g)); [|discriminate]. injection H as _ <- _. reflexivity.
    + injection H as _ <- _. reflexivity.
  - intros u g' tr H Hx. apply loop_globals in H. subst g'. cbn in Hx.
    unfold code_after in Hx. destruct (serial inp); [eauto|]. congruence.
  - apply loop_idle.
Qed.

(** ** Codes *)

(** Splitting a code with [% 8] and [/ 8] undoes packing a rate index and
    a bit index as [8 * r + b], and the two parts always rebuild the
    code, negative codes included. *)
Theorem code_round_trip r b :
  0 <= r -> 0 <= b < 8 ->
  bit_index (8 * r + b) = b /\ rate_index (8 * r + b) = r /\
  (forall code, 8 * rate_index code + bit_index code = code).
Proof.
  intros Hr Hb. unfold bit_index, rate_index. split; [|split].
  - rewrite Z.rem_mod_nonneg by lia.
    rewrite Z.add_comm, Z.mul_comm, Z.mod_add by lia. apply Z.mod_small. lia.
  - rewrite Z.quot_div_nonneg by lia.
    rewrite Z.add_comm, Z.mul_comm, Z.div_add by lia.
    rewrite Z.div_small by lia. lia.
  - intros code. symmetry. apply Z.quot_rem'.
Qed.

Lemma paint_inv code ops :
  paint code = Some ops ->
  exists c0 c1,
    index bit_cols (bit_index code) = Some c0 /\
    index sample_cols (rate_index code) = Some c1 /\
    ops = [SetPixelColor 0 c0; Fill c1 1 NUM_NEOPIXEL; Show].
Proof.
  unfold paint. intros H.
  destruct (index bit_cols _) as [c0|]; [|discriminate].
  destruct (index sample_cols _) as [c1|]; [|discriminate].
  injection H as <-. eauto.
Qed.

Lemma paint_is_Some code :
  is_Some (paint code) <->
  0 <= bit_index code < 5 /\ 0 <= rate_index code < 10.
Proof.
  unfold paint. split.
  - intros [ops H].
    destruct (index bit_cols _) as [c0|] eqn:E0; [|discriminate].
    destruct (index sample_cols _) as [c1|] eqn:E1; [|discriminate].
    split; [apply (index_is_Some bit_cols)|apply (index_is_Some sample_cols)]; eauto.
  - intros [H0 H1].
    destruct (proj2 (index_is_Some bit_cols (bit_index code)) H0) as [c0 ->].
    destruct (proj2 (index_is_Some sample_cols (rate_index code)) H1) as [c1 ->].
    eauto.
Qed.

(** The codes the sketch can render are exactly the fifty codes below 80
    whose remainder by 8 is below 5; for every other code, negative or
    not, a render reads outside a table. *)
Theorem render_defined_iff code b :
  is_Some (render (mkGlobals code b)) <-> 0 <= code < 80 /\ code mod 8 < 5.
Proof.
  rewrite render_run. cbn [x].
  transitivity (is_Some (paint code)).
  { destruct (paint code); split; intros [? H]; try discriminate H; eauto. }
  rewrite paint_is_Some. unfold bit_index, rate_index.
  pose proof (Z.quot_rem' code 8) as Hqr.
  pose proof (Z.mod_pos_bound code 8 ltac:(lia)) as Hm.
  split.
  - intros [H0 H1].
    assert (0 <= code) as Hc by lia.
    rewrite Z.rem_mod_nonneg in * by lia. lia.
  - intros [Hc Hlt]. rewrite Z.rem_mod_nonneg in * by lia. lia.
Qed.

Lemma tables_NoDup : NoDup bit_cols /\ NoDup sample_cols.
Proof. split; apply (bool_decide_unpack _); vm_compute; exact I. Qed.

Lemma index_inj t i j c :
  NoDup t -> index t i = Some c -> index t j = Some c -> i = j.
Proof.
  unfold index. intros Hnd Hi Hj.
  destruct (i <? 0) eqn:Ei; [discriminate|].
  destruct (j <? 0) eqn:Ej; [discriminate|].
  apply Z.ltb_ge in Ei, Ej.
  pose proof (NoDup_lookup t _ _ _ Hnd Hi Hj). lia.
Qed.

(** Two codes that render send different calls to the strip unless they
    are the same code: no two renderable codes look alike. *)
Theorem display_injective g1 g2 u1 u2 g1' g2' ops :
  render g1 = Some (u1, g1', ops) -> render g2 = Some (u2, g2', ops) ->
  x g1 = x g2.
Proof.
  rewrite !render_run. intros H1 H2.
  destruct (paint (x g1)) as [o1|] eqn:P1; [|discriminate].
  destruct (paint (x g2)) as [o2|] eqn:P2; [|discriminate].
  injection H1 as _ _ ->. injection H2 as _ _ ->.
  apply paint_inv in P1, P2.
  destruct P1 as (a0 & a1 & Ha0 & Ha1 & Hops).
  destruct P2 as (b0 & b1 & Hb0 & Hb1 & Hops').
  rewrite Hops in Hops'. injection Hops' as <- <-.
  destruct tables_NoDup as [Hb Hs].
  pose proof (index_inj _ _ _ _ Hb Ha0 Hb0) as Ebit.
  pose proof (index_inj _ _ _ _ Hs Ha1 Hb1) as Erate.
  unfold bit_index, rate_index in *.
  rewrite (Z.quot_rem' (x g1) 8), (Z.quot_rem' (x g2) 8). congruence.
Qed.

(** ** Whole passes *)

Lemma paint_nonempty code ops : paint code = Some ops -> ops <> [].
Proof. intros H. apply paint_inv in H. destruct H as (? & ? & _ & _ & ->). discriminate. Qed.

Lemma fired_or_idle inp :
  (is_Some (serial inp) \/ 500 < touch1 inp \/ 500 < touch2 inp) \/
  (serial inp = None /\ touch1 inp <= 500 /\ touch2 inp <= 500).
Proof.
  destruct (serial inp) as [tok|]; [left; left; eauto|].
  destruct (Z_lt_dec 500 (touch1 inp)); [tauto|].
  destruct (Z_lt_dec 500 (touch2 inp)); [tauto|].
  right. repeat split; lia.
Qed.

Lemma loop_unpaintable_idle inp g u g' tr :
  paint (code_after inp g) = None -> loop inp g = Some (u, g', tr) ->
  serial inp = None /\ touch1 inp <= 500 /\ touch2 inp <= 500.
Proof.
  intros Hp Hl. destruct (fired_or_idle inp) as [Hfire|Hidle]; [|exact Hidle].
  rewrite loop_undefined in Hl by assumption. discriminate.
Qed.

(** A pass is defined exactly when the code it has in [x] after the
    serial branch can be rendered, or when it renders nothing at all. *)
Theorem loop_defined_iff inp g :
  is_Some (loop inp g) <->
  is_Some (paint (code_after inp g)) \/
  (serial inp = None /\ touch1 inp <= 500 /\ touch2 inp <= 500).
Proof.
  split.
  - intros [[[u g'] tr] Hl].
    destruct (paint (code_after inp g)) as [ops|] eqn:Hp; [left; eauto|right].
    eapply loop_unpaintable_idle; eassumption.
  - intros [[ops Hp]|(Hs & H1 & H2)].
    + rewrite (loop_run _ _ _ Hp). eauto.
    + rewrite loop_idle by assumption. eauto.
Qed.

(** A defined pass makes no driver call exactly when nothing came over
    the serial line and neither reading is above 500. *)
Theorem loop_silent_iff inp g u g' tr :
  loop inp g = Some (u, g', tr) ->
  (tr = [] <-> serial inp = None /\ touch1 inp <= 500 /\ touch2 inp <= 500).
Proof.
  intros Hl. split.
  - intros ->.
    destruct (paint (code_after inp g)) as [ops|] eqn:Hp.
    + pose proof (paint_nonempty _ _ Hp) as Hne.
      rewrite (loop_run _ _ _ Hp) in Hl. cbv zeta in Hl.
      injection Hl as _ _ Htr.
      apply app_eq_nil in Htr. destruct Htr as [Hs Htr].
      apply app_eq_nil in Htr. destruct Htr as [H1 H2].
      destruct (serial inp); [contradiction|].
      destruct (500 <? touch1 inp) eqn:E1.
      { apply app_eq_nil in H1. destruct H1 as [_ H1]. discriminate. }
      destruct (500 <? touch2 inp) eqn:E2.
      { apply app_eq_nil in H2. destruct H2 as [_ H2]. discriminate. }
      apply Z.ltb_ge in E1, E2. tauto.
    + eapply loop_unpaintable_idle; eassumption.
  - intros (Hs & H1 & H2). rewrite loop_idle in Hl by assumption. congruence.
Qed.

(** Whenever a pad is touched in a defined pass, the last driver call of
    the pass is [setBrightness] with the value [neo_brightness] has at its
    end: no [show] follows it within the pass. *)
Theorem touched_pass_ends_with_setBrightness inp g u g' tr :
  in_range g -> loop inp g = Some (u, g', tr) ->
  500 < touch1 inp \/ 500 < touch2 inp ->
  last tr = Some (SetBrightness (neo_brightness g')).
Proof.
  intros Hg Hl Hfire.
  destruct (paint (code_after inp g)) as [ops|] eqn:Hp.
  2:{ rewrite loop_undefined in Hl; [discriminate|assumption|tauto]. }
  rewrite (loop_run _ _ _ Hp) in Hl. cbv zeta in Hl.
  destruct (after_touch1_clamped (touch1 inp) _ Hg) as [_ Hb1].
  destruct (after_touch2_clamped (touch2 inp) _ Hb1) as [_ Hb2].
  injection Hl as _ <- <-. cbn [neo_brightness].
  destruct (500 <? touch2 inp) eqn:E2.
  - rewrite !app_assoc, last_snoc, to_uint8_small by lia. reflexivity.
  - rewrite app_nil_r.
    destruct (500 <? touch1 inp) eqn:E1.
    + rewrite !app_assoc, last_snoc.
      unfold after_touch2 at 1. rewrite E2. rewrite to_uint8_small by lia. reflexivity.
    + apply Z.ltb_ge in E1, E2. lia.
Qed.

(** Every pixel write of a defined pass carries the colors of the code
    that is in [x] at the end of that pass: a token decoded in a pass is
    what the touch branches of the same pass repaint. *)
Theorem pass_paints_its_code inp g u g' tr c :
  loop inp g = Some (u, g', tr) -> c ∈ tr ->
  (exists b, c = SetBrightness b) \/
  (exists ops, paint (x g') = Some ops /\ c ∈ ops).
Proof.
  intros Hl Hc.
  destruct (paint (code_after inp g)) as [ops|] eqn:Hp.
  - rewrite (loop_run _ _ _ Hp) in Hl. cbv zeta in Hl.
    injection Hl as _ <- <-. cbn [x]. rewrite Hp.
    rewrite !elem_of_app in Hc.
    destruct Hc as [Hc|[Hc|Hc]].
    + destruct (serial inp); [eauto|inversion Hc].
    + destruct (500 <? touch1 inp); [|inversion Hc].
      apply elem_of_app in Hc. destruct Hc as [Hc|Hc]; [eauto|].
      apply list_elem_of_singleton in Hc. eauto.
    + destruct (500 <? touch2 inp); [|inversion Hc].
      apply elem_of_app in Hc. destruct Hc as [Hc|Hc]; [eauto|].
      apply list_elem_of_singleton in Hc. eauto.
  - destruct (loop_unpaintable_idle _ _ _ _ _ Hp Hl) as (Hs & H1 & H2).
    rewrite loop_idle in Hl by assumption.
    injection Hl as _ _ <-. inversion Hc.
Qed.

(** ** Runs *)

Lemma passes_cons inp rest g :
  passes (inp :: rest) g =
    match loop inp g with
    | Some (_, g1, t1) =>
        match passes rest g1 with
        | Some (u, g2, t2) => Some (u, g2, t1 ++ t2)
        | None => None
        end
    | None => None
    end.
Proof. reflexivity. Qed.

Lemma drive_all_app st a b : drive_all st (a ++ b) = drive_all (drive_all st a) b.
Proof. apply foldl_app. Qed.

(** A property of the globals and the strip that every defined pass
    keeps is kept by every defined run of passes. *)
Lemma passes_invariant (I : globals -> strip -> Prop) :
  (forall inp g st u g' tr,
     I g st -> loop inp g = Some (u, g', tr) -> I g' (drive_all st tr)) ->
  forall inps g st u g' tr,
    I g st -> passes inps g = Some (u, g', tr) -> I g' (drive_all st tr).
Proof.
  intros Hstep. induction inps as [|inp rest IH]; intros g st u g' tr HI Hp.
  - injection Hp as _ <- <-. exact HI.
  - rewrite passes_cons in Hp.
    destruct (loop inp g) as [[[u1 g1] t1]|] eqn:Hl; [|discriminate].
    destruct (passes rest g1) as [[[u2 g2] t2]|] eqn:Hr; [|discriminate].
    injection Hp as _ <- <-. rewrite drive_all_app.
    eapply IH; [|exact Hr]. eapply Hstep; eassumption.
Qed.

Lemma hold_step inp g ops :
  serial inp = None -> paint (x g) = Some ops ->
  exists tr,
    loop inp g =
      Some (tt, mkGlobals (x g)
                  (after_touch2 (touch2 inp) (after_touch1 (touch1 inp) (neo_brightness g))),
            tr).
Proof.
  intros Hs Hp.
  assert (code_after inp g = x g) as Hc by (unfold code_after; rewrite Hs; reflexivity).
  rewrite (loop_run inp g ops) by (rewrite Hc; exact Hp). rewrite Hc. eauto.
Qed.

(** Holding the first pad alone for [n] passes takes the brightness from
    [b] to [max 0 (b - n)]: one step down per pass, then it rests at 0. *)
Theorem hold_pad1_ramp n t1 t2 : forall g,
  in_range g -> is_Some (paint (x g)) -> 500 < t1 -> t2 <= 500 ->
  exists tr,
    passes (replicate n (mkInput None t1 t2)) g =
      Some (tt, mkGlobals (x g) (Z.max 0 (neo_brightness g - Z.of_nat n)), tr).
Proof.
  induction n as [|n IH]; intros g Hg [ops Hp] H1 H2.
  - exists []. cbn. unfold ret. destruct g as [c b]. unfold in_range in Hg.
    cbn in *. replace (Z.max 0 (b - Z.of_nat 0)) with b by lia. reflexivity.
  - cbn [replicate]. rewrite passes_cons.
    destruct (hold_step (mkInput None t1 t2) g ops eq_refl Hp) as [tr1 ->].
    cbn [touch1 touch2].
    apply Z.ltb_lt in H1 as E1. apply Z.ltb_ge in H2 as E2.
    unfold after_touch1, after_touch2. rewrite E1, E2.
    unfold in_range in Hg. rewrite to_int16_small by lia.
    destruct (IH (mkGlobals (x g) (Z.max 0 (neo_brightness g - 1)))) as [tr2 ->];
      [unfold in_range; cbn; lia | cbn; eauto | assumption | assumption |].
    cbn [x neo_brightness].
    replace (Z.max 0 (neo_brightness g - Z.of_nat (S n)))
      with (Z.max 0 (Z.max 0 (neo_brightness g - 1) - Z.of_nat n)) by lia.
    eexists. reflexivity.
Qed.

(** Holding the second pad alone for [n] passes takes the brightness from
    [b] to [min 255 (b + n)]: one step up per pass, then it rests at
    255. *)
Theorem hold_pad2_ramp n t1 t2 : forall g,
  in_range g -> is_Some (paint (x g)) -> t1 <= 500 -> 500 < t2 ->
  exists tr,
    passes (replicate n (mkInput None t1 t2)) g =
      Some (tt, mkGlobals (x g) (Z.min 255 (neo_brightness g + Z.of_nat n)), tr).
Proof.
  induction n as [|n IH]; intros g Hg [ops Hp] H1 H2.
  - exists []. cbn. unfold ret. destruct g as [c b]. unfold in_range in Hg.
    cbn in *. replace (Z.min 255 (b + Z.of_nat 0)) with b by lia. reflexivity.
  - cbn [replicate]. rewrite passes_cons.
    destruct (hold_step (mkInput None t1 t2) g ops eq_refl Hp) as [tr1 ->].
    cbn [touch1 touch2].
    apply Z.ltb_ge in H1 as E1. apply Z.ltb_lt in H2 as E2.
    unfold after_touch1, after_touch2. rewrite E1, E2.
    unfold in_range in Hg. rewrite to_int16_small by lia.
    destruct (IH (mkGlobals (x g) (Z.min 255 (neo_brightness g + 1)))) as [tr2 ->];
      [unfold in_range; cbn; lia | cbn; eauto | assumption | assumption |].
    cbn [x neo_brightness].
    replace (Z.min 255 (neo_brightness g + Z.of_nat (S n)))
      with (Z.min 255 (Z.min 255 (neo_brightness g + 1) + Z.of_nat n)) by lia.
    eexists. reflexivity.
Qed.

(** ** The strip across passes *)

(** What a defined pass that renders leaves in the driver. *)
Lemma loop_strip inp g c0 c1 st u g' tr :
  index bit_cols (bit_index (code_after inp g)) = Some c0 ->
  index sample_cols (rate_index (code_after inp g)) = Some c1 ->
  loop inp g = Some (u, g', tr) ->
  let b1 := after_touch1 (touch1 inp) (neo_brightness g) in
  let b2 := after_touch2 (touch2 inp) b1 in
  let P := fill_range c1 1 NUM_NEOPIXEL (set_pixel 0 c0 (pixels st)) in
  drive_all st tr =
    if 500 <? touch2 inp then
      mkStrip P (to_uint8 b2)
        (P, if 500 <? touch1 inp then to_uint8 b1 else brightness st)
    else if 500 <? touch1 inp then mkStrip P (to_uint8 b1) (P, brightness st)
    else match serial inp with
         | Some _ => mkStrip P (brightness st) (P, brightness st)
         | None => st
         end.
Proof.
  intros H0 H1 Hl.
  assert (paint (code_after inp g) =
          Some [SetPixelColor 0 c0; Fill c1 1 NUM_NEOPIXEL; Show]) as Hp
    by (unfold paint; rewrite H0, H1; reflexivity).
  rewrite (loop_run _ _ _ Hp) in Hl. cbv zeta in Hl. injection Hl as _ _ <-.
  cbv zeta. unfold drive_all.
  destruct (500 <? touch2 inp), (500 <? touch1 inp), (serial inp);
    cbn [app foldl drive pixels brightness leds];
    rewrite ?repaint_pixels; reflexivity.
Qed.

Lemma loop_renders inp g u g' tr :
  loop inp g = Some (u, g', tr) ->
  is_Some (serial inp) \/ 500 < touch1 inp \/ 500 < touch2 inp ->
  exists c0 c1,
    index bit_cols (bit_index (code_after inp g)) = Some c0 /\
    index sample_cols (rate_index (code_after inp g)) = Some c1.
Proof.
  intros Hl Hfire.
  destruct (paint (code_after inp g)) as [ops|] eqn:Hp.
  - apply paint_inv in Hp. destruct Hp as (c0 & c1 & ? & ? & _). eauto.
  - rewrite loop_undefined in Hl by assumption. discriminate.
Qed.

Lemma loop_level inp g st u g' tr :
  in_range g /\ brightness st = neo_brightness g ->
  loop inp g = Some (u, g', tr) ->
  in_range g' /\ brightness (drive_all st tr) = neo_brightness g'.
Proof.
  intros [Hg Hb] Hl. split; [eapply loop_in_range; eassumption|].
  destruct (after_touch1_clamped (touch1 inp) _ Hg) as [_ Hb1].
  destruct (after_touch2_clamped (touch2 inp) _ Hb1) as [_ Hb2].
  destruct (fired_or_idle inp) as [Hfire|(Hs & H1 & H2)].
  - destruct (loop_renders _ _ _ _ _ Hl Hfire) as (c0 & c1 & H0 & H1).
    rewrite (loop_strip _ _ _ _ st _ _ _ H0 H1 Hl). cbv zeta.
    apply loop_globals in Hl. subst g'. cbn [neo_brightness].
    unfold after_touch1, after_touch2 in *.
    destruct (500 <? touch2 inp), (500 <? touch1 inp), (serial inp);
      cbn [brightness]; rewrite ?to_uint8_small by lia;
      first [reflexivity | exact Hb].
  - rewrite loop_idle in Hl by assumption. injection Hl as _ <- <-. exact Hb.
Qed.

Lemma setup_run g :
  setup g = Some (tt, g, [SetBrightness (to_uint8 (neo_brightness g)); Show]).
Proof. reflexivity. Qed.

Lemma power_on_run inps u g' tr :
  power_on inps = Some (u, g', tr) ->
  exists tr', passes inps initial = Some (u, g', tr') /\
              tr = [SetBrightness 20; Show] ++ tr'.
Proof.
  unfold power_on, bind. rewrite setup_run.
  destruct (passes inps initial) as [[[u1 g1] t1]|]; [|discriminate].
  intros H. injection H as <- <- <-. eauto.
Qed.

(** From power-on, after [setup()] and any defined run of passes, the
    brightness level held by the driver is the value of [neo_brightness],
    which is in [0,255]: no write to the variable goes without its
    [setBrightness]. *)
Theorem driver_level_tracks_brightness inps u g' tr st0 :
  power_on inps = Some (u, g', tr) ->
  in_range g' /\ brightness (drive_all st0 tr) = neo_brightness g'.
Proof.
  intros Hp. apply power_on_run in Hp. destruct Hp as (tr' & Hp & ->).
  rewrite drive_all_app.
  apply (passes_invariant
           (fun g st => in_range g /\ brightness st = neo_brightness g)
           loop_level inps initial _ u g' tr'); [|exact Hp].
  split; [apply initial_in_range|reflexivity].
Qed.

(** After a pass in which exactly one pad is touched, the level the LEDs
    were last shown with is still the one the driver had before the pass,
    while the driver already holds the new value of [neo_brightness]:
    [show] comes before [setBrightness] in both touch branches. *)
Theorem shown_level_lags inp g st u g' tr :
  in_range g -> loop inp g = Some (u, g', tr) ->
  (500 < touch1 inp /\ touch2 inp <= 500) \/
  (touch1 inp <= 500 /\ 500 < touch2 inp) ->
  snd (leds (drive_all st tr)) = brightness st /\
  brightness (drive_all st tr) = neo_brightness g'.
Proof.
  intros Hg Hl Hone.
  destruct (loop_renders _ _ _ _ _ Hl) as (c0 & c1 & H0 & H1); [tauto|].
  rewrite (loop_strip _ _ _ _ st _ _ _ H0 H1 Hl). cbv zeta.
  apply loop_globals in Hl. subst g'. cbn [neo_brightness].
  destruct (after_touch1_clamped (touch1 inp) _ Hg) as [_ Hb1].
  destruct (after_touch2_clamped (touch2 inp) _ Hb1) as [_ Hb2].
  destruct Hone as [[Ha Hb]|[Ha Hb]].
  - apply Z.ltb_lt in Ha. apply Z.ltb_ge in Hb.
    unfold after_touch2 in *. rewrite Ha, Hb in *. cbn [leds brightness snd].
    rewrite to_uint8_small by lia. split; reflexivity.
  - apply Z.ltb_ge in Ha. apply Z.ltb_lt in Hb.
    rewrite Ha, Hb in *. cbn [leds brightness snd].
    rewrite to_uint8_small by lia. split; reflexivity.
Qed.

Lemma painting_length code P :
  0 < NUM_NEOPIXEL -> painting code = Some P -> length P = Z.to_nat NUM_NEOPIXEL.
Proof.
  unfold painting. intros Hn H.
  destruct (index bit_cols _); [|discriminate].
  destruct (index sample_cols _); [|discriminate].
  injection H as <-. cbn. rewrite length_replicate. lia.
Qed.

Lemma loop_pixels inp g st u g' tr :
  0 < NUM_NEOPIXEL ->
  painting (x g) = Some (pixels st) /\ fst (leds st) = pixels st ->
  loop inp g = Some (u, g', tr) ->
  painting (x g') = Some (pixels (drive_all st tr)) /\
  fst (leds (drive_all st tr)) = pixels (drive_all st tr).
Proof.
  intros Hn [Hx Hleds] Hl.
  pose proof (painting_length _ _ Hn Hx) as Hlen.
  destruct (fired_or_idle inp) as [Hfire|(Hs & H1 & H2)].
  - destruct (loop_renders _ _ _ _ _ Hl Hfire) as (c0 & c1 & H0 & H1).
    rewrite (loop_strip _ _ _ _ st _ _ _ H0 H1 Hl). cbv zeta.
    apply loop_globals in Hl. subst g'. cbn [x].
    unfold painting. rewrite H0, H1.
    rewrite (painted_pixels c0 c1 (pixels st) Hn Hlen).
    destruct (500 <? touch2 inp) eqn:E2, (500 <? touch1 inp) eqn:E1,
      (serial inp) eqn:Hs;
      cbn [pixels leds fst]; first [split; reflexivity | exfalso].
    apply Z.ltb_ge in E1, E2.
    destruct Hfire as [[? Hf]|[?|?]]; [discriminate Hf|lia|lia].
  - rewrite loop_idle in Hl by assumption. injection Hl as _ <- <-. tauto.
Qed.

(** From power-on with all pixels off, after [setup()] and any defined
    run of passes, the pixel buffer and the pixels last shown on the LEDs
    are the colors of the code in [x]: its bit-depth color on pixel 0 and
    its sample-rate color on all the others. *)
Theorem strip_shows_current_code inps u g' tr st0 :
  0 < NUM_NEOPIXEL ->
  pixels st0 = replicate (Z.to_nat NUM_NEOPIXEL) black ->
  power_on inps = Some (u, g', tr) ->
  painting (x g') = Some (pixels (drive_all st0 tr)) /\
  fst (leds (drive_all st0 tr)) = pixels (drive_all st0 tr).
Proof.
  intros Hn Hoff Hp. apply power_on_run in Hp. destruct Hp as (tr' & Hp & ->).
  rewrite drive_all_app.
  apply (passes_invariant
           (fun g st => painting (x g) = Some (pixels st) /\ fst (leds st) = pixels st)
           (fun inp g st u g' tr => loop_pixels inp g st u g' tr Hn)
           inps initial _ u g' tr'); [|exact Hp].
  split; [|reflexivity]. cbn. rewrite Hoff.
  change (Some (black :: replicate (Z.to_nat NUM_NEOPIXEL - 1) black) =
          Some (replicate (Z.to_nat NUM_NEOPIXEL) black)).
  replace (Z.to_nat NUM_NEOPIXEL) with (S (Z.to_nat NUM_NEOPIXEL - 1)) at 2 by lia.
  reflexivity.
Qed.

End Sketch.

(** ** Concrete runs on a four-pixel board *)

(** Three passes from brightness 0: dim, brighten, then a token with
    both pads touched. *)
Lemma brightness_stays_in_range_witness :
  in_range (mkGlobals 0 0) /\
  (exists hist,
     ticks 4 [mkInput None 600 0; mkInput None 0 600;
              mkInput (Some "17"%string) 600 600] (mkGlobals 0 0) = Some hist /\
     map fst hist = [mkGlobals 0 0; mkGlobals 0 1; mkGlobals 17 1] /\
     Forall (fun p => in_range (fst p)) hist) /\
  is_Some (ticks 4 [mkInput None 600 0; mkInput None 0 600] (mkGlobals 0 0)) /\
  (exists tr, touch1_branch 4 600 (mkGlobals 0 0) = Some (tt, mkGlobals 0 0, tr) /\
     neo_brightness (mkGlobals 0 0) = Z.max 0 (neo_brightness (mkGlobals 0 0) - 1)) /\
  (exists tr, touch2_branch 4 600 (mkGlobals 0 0) = Some (tt, mkGlobals 0 1, tr) /\
     neo_brightness (mkGlobals 0 1) = Z.min 255 (neo_brightness (mkGlobals 0 0) + 1)) /\
  (exists tr, loop 4 (mkInput None 600 7) (mkGlobals 0 0) = Some (tt, mkGlobals 0 0, tr) /\
     neo_brightness (mkGlobals 0 0) = 0).
Proof.
  assert (in_range (mkGlobals 0 0)) as Hg by (unfold in_range; simpl; lia).
  destruct (brightness_stays_in_range 4 (mkGlobals 0 0) Hg)
    as (Hall & Hdef & Hdec & Hinc & Hzero).
  split; [exact Hg|]. split.
  { destruct (ticks 4 [mkInput None 600 0; mkInput None 0 600;
                       mkInput (Some "17"%string) 600 600] (mkGlobals 0 0))
      as [hist|] eqn:E; [|vm_compute in E; discriminate E].
    exists hist. split; [reflexivity|]. split; [|exact (Hall _ _ E)].
    vm_compute in E. injection E as <-. reflexivity. }
  split.
  { apply Hdef; [vm_compute; eauto|]. repeat constructor. }
  split.
  { eexists. split; [reflexivity|].
    exact (Hdec 600 tt (mkGlobals 0 0) _ ltac:(lia) eq_refl). }
  split.
  { eexists. split; [reflexivity|].
    exact (Hinc 600 tt (mkGlobals 0 1) _ ltac:(lia) eq_refl). }
  eexists. split; [reflexivity|].
  exact (Hzero (mkInput None 600 7) tt (mkGlobals 0 0) _ eq_refl eq_refl
           ltac:(simpl; lia) eq_refl).
Defined.

(** From brightness 0 a pass with both pads touched does not come back
    to 0: the decrement is absorbed by the floor, the increment is not. *)
Lemma both_pads_from_zero_counterexample :
  in_range (mkGlobals 0 0) /\
  500 < touch1 (mkInput None 600 600) /\ 500 < touch2 (mkInput None 600 600) /\
  loop 4 (mkInput None 600 600) (mkGlobals 0 0) =
    Some (tt, mkGlobals 0 1,
          [SetPixelColor 0 black; Fill black 1 4; Show; SetBrightness 0;
           SetPixelColor 0 black; Fill black 1 4; Show; SetBrightness 1]) /\
  neo_brightness (mkGlobals 0 1) <> neo_brightness (mkGlobals 0 0).
Proof.
  split; [unfold in_range; simpl; lia|].
  split; [simpl; lia|]. split; [simpl; lia|].
  split; [reflexivity|]. simpl. lia.
Qed.

Lemma both_pads_net_brightness_witness :
  500 < touch1 (mkInput None 600 600) /\ 500 < touch2 (mkInput None 600 600) /\
  (exists g' tr,
     loop 4 (mkInput None 600 600) (mkGlobals 0 10) = Some (tt, g', tr) /\
     neo_brightness g' = neo_brightness (mkGlobals 0 10)) /\
  (exists g' tr,
     loop 4 (mkInput None 600 600) (mkGlobals 0 0) = Some (tt, g', tr) /\
     neo_brightness g' = 1).
Proof.
  assert (500 < touch1 (mkInput None 600 600)) as H1 by (simpl; lia).
  assert (500 < touch2 (mkInput None 600 600)) as H2 by (simpl; lia).
  split; [exact H1|]. split; [exact H2|]. split.
  - destruct (loop 4 (mkInput None 600 600) (mkGlobals 0 10))
      as [[[u g'] tr]|] eqn:E; [|vm_compute in E; discriminate E].
    exists g', tr. destruct u. split; [reflexivity|].
    apply (proj1 (both_pads_net_brightness 4 _ _ _ _ _ H1 H2 E)). simpl. lia.
  - destruct (loop 4 (mkInput None 600 600) (mkGlobals 0 0))
      as [[[u g'] tr]|] eqn:E; [|vm_compute in E; discriminate E].
    exists g', tr. destruct u. split; [reflexivity|].
    apply (proj2 (both_pads_net_brightness 4 _ _ _ _ _ H1 H2 E)). reflexivity.
Defined.

(** Code 5: index 5 is past the end of [bit_cols], and no color,
    sentinel or other, is defined there. *)
Lemma bit_index_5_counterexample :
  0 <= 5 /\ bit_index 5 = 5 /\
  index bit_cols (bit_index 5) = None /\
  index bit_cols (bit_index 5) <> Some darkred /\
  render 4 (mkGlobals 5 20) = None.
Proof.
  split; [lia|]. split; [reflexivity|]. split; [reflexivity|].
  split; [discriminate|reflexivity].
Qed.

Lemma bit_index_lookup_witness :
  0 <= 12 /\ bit_index 12 = 4 /\ index bit_cols (bit_index 12) = Some darkred /\
  0 <= 13 /\ bit_index 13 = 5 /\ index bit_cols (bit_index 13) = None.
Proof.
  assert (0 <= 12) as H12 by lia. assert (0 <= 13) as H13 by lia.
  destruct (bit_index_lookup 4 12 H12) as (_ & _ & _ & Hsent & _).
  destruct (bit_index_lookup 4 13 H13) as (_ & _ & _ & _ & Hout).
  split; [exact H12|]. split; [reflexivity|]. split; [apply Hsent; reflexivity|].
  split; [exact H13|]. split; [reflexivity|].
  apply Hout. vm_compute. discriminate.
Defined.

(** Code 80: index 10 is past the end of [sample_cols], and no color,
    sentinel or other, is defined there. *)
Lemma rate_index_10_counterexample :
  0 <= 80 /\ rate_index 80 = 10 /\ 9 <= rate_index 80 /\
  index sample_cols (rate_index 80) = None /\
  index sample_cols (rate_index 80) <> Some darkred /\
  render 4 (mkGlobals 80 20) = None.
Proof.
  split; [lia|]. split; [reflexivity|]. split; [vm_compute; discriminate|].
  split; [reflexivity|]. split; [discriminate|reflexivity].
Qed.

Lemma rate_index_lookup_witness :
  0 <= 79 /\ rate_index 79 = 9 /\ index sample_cols (rate_index 79) = Some darkred /\
  0 <= 80 /\ rate_index 80 = 10 /\ index sample_cols (rate_index 80) = None.
Proof.
  assert (0 <= 79) as H79 by lia. assert (0 <= 80) as H80 by lia.
  destruct (rate_index_lookup 4 79 H79) as (_ & _ & _ & Hsent & _).
  destruct (rate_index_lookup 4 80 H80) as (_ & _ & _ & _ & Hout).
  split; [exact H79|]. split; [reflexivity|]. split; [apply Hsent; reflexivity|].
  split; [exact H80|]. split; [reflexivity|].
  apply Hout. vm_compute. discriminate.
Defined.

Lemma render_idempotent_witness :
  render 4 (mkGlobals 17 20) =
    Some (tt, mkGlobals 17 20, [SetPixelColor 0 red; Fill orange 1 4; Show]) /\
  drive_all (mkStrip [0; 0; 0; 0] 20 ([], 0))
    ([SetPixelColor 0 red; Fill orange 1 4; Show] ++
     [SetPixelColor 0 red; Fill orange 1 4; Show]) =
  drive_all (mkStrip [0; 0; 0; 0] 20 ([], 0))
    [SetPixelColor 0 red; Fill orange 1 4; Show].
Proof.
  split; [reflexivity|].
  apply (render_idempotent 4 (mkGlobals 17 20) tt (mkGlobals 17 20)
           [SetPixelColor 0 red; Fill orange 1 4; Show]
           (mkStrip [0; 0; 0; 0] 20 ([], 0)) eq_refl).
Defined.

Lemma five_ticks_dim_to_15_witness :
  neo_brightness initial = 20 /\
  paint 4 (x initial) = Some [SetPixelColor 0 black; Fill black 1 4; Show] /\
  0 <= 500 /\
  ticks 4 (replicate 5 (mkInput None 600 0)) initial =
    Some [ (mkGlobals 0 19, [SetPixelColor 0 black; Fill black 1 4; Show; SetBrightness 19]);
           (mkGlobals 0 18, [SetPixelColor 0 black; Fill black 1 4; Show; SetBrightness 18]);
           (mkGlobals 0 17, [SetPixelColor 0 black; Fill black 1 4; Show; SetBrightness 17]);
           (mkGlobals 0 16, [SetPixelColor 0 black; Fill black 1 4; Show; SetBrightness 16]);
           (mkGlobals 0 15, [SetPixelColor 0 black; Fill black 1 4; Show; SetBrightness 15]) ].
Proof.
  split; [reflexivity|]. split; [reflexivity|]. split; [lia|].
  apply (five_ticks_dim_to_15 4 initial
           [SetPixelColor 0 black; Fill black 1 4; Show] 0); [reflexivity|reflexivity|lia].
Defined.

Lemma token_17_red_orange_witness :
  0 < 4 /\
  length (pixels (mkStrip [0; 0; 0; 0] 20 ([], 0))) = Z.to_nat 4 /\
  serial_branch 4 (Some "17"%string) initial =
    Some (tt, mkGlobals 17 20, [SetPixelColor 0 red; Fill orange 1 4; Show]) /\
  leds (drive_all (mkStrip [0; 0; 0; 0] 20 ([], 0))
          [SetPixelColor 0 red; Fill orange 1 4; Show]) =
    ([red; orange; orange; orange], 20).
Proof.
  assert (0 < 4) as H4 by lia.
  destruct (token_17_red_orange 4 initial (mkStrip [0; 0; 0; 0] 20 ([], 0)) H4 eq_refl)
    as (_ & _ & _ & _ & _ & Hrun & Hleds).
  split; [exact H4|]. split; [reflexivity|]. split; [exact Hrun|exact Hleds].
Defined.

(** The token "12abc" is no decimal integer, yet its leading digits are
    decoded: 12 is stored and rendered, not 0. *)
Lemma malformed_token_12abc_counterexample :
  decimal_integer "12abc" = false /\
  toInt "12abc" = 12 /\ toInt "12abc" <> 0 /\
  serial_branch 4 (Some "12abc"%string) initial =
    Some (tt, mkGlobals 12 20, [SetPixelColor 0 darkred; Fill yellow 1 4; Show]) /\
  x (mkGlobals 12 20) <> 0.
Proof.
  split; [reflexivity|]. split; [reflexivity|]. split; [discriminate|].
  split; [reflexivity|]. discriminate.
Qed.

Lemma token_without_number_decodes_to_zero_witness :
  has_digit "abc" = false /\ ~ begins_with_number "abc" /\ toInt "abc" = 0 /\
  serial_branch 4 (Some "abc"%string) (mkGlobals 17 20) =
    Some (tt, mkGlobals 0 20, [SetPixelColor 0 black; Fill black 1 4; Show]) /\
  ~ begins_with_number "" /\ toInt "" = 0.
Proof.
  destruct (token_without_number_decodes_to_zero 4 "abc" (mkGlobals 17 20))
    as [Hno Hzero].
  destruct (token_without_number_decodes_to_zero 4 "" (mkGlobals 17 20))
    as [Hno' Hzero'].
  assert (has_digit "abc" = false) as Hd by reflexivity.
  assert (has_digit "" = false) as Hd' by reflexivity.
  split; [exact Hd|]. split; [exact (Hno Hd)|].
  split; [exact (proj1 (Hzero (Hno Hd)))|].
  split; [exact (proj2 (Hzero (Hno Hd)))|].
  split; [exact (Hno' Hd')|exact (proj1 (Hzero' (Hno' Hd')))].
Defined.

Lemma negative_token_escapes_bit_cols_witness :
  toInt "-16" < 0 /\ bit_index (toInt "-16") <= 0 /\
  serial_branch 4 (Some "-16"%string) initial = None.
Proof.
  assert (toInt "-16" < 0) as Hneg by (vm_compute; reflexivity).
  destruct (negative_token_escapes_bit_cols 4 initial) as (_ & _ & _ & _ & _ & _ & Hall).
  split; [exact Hneg|]. exact (Hall "-16"%string Hneg).
Defined.

Lemma single_writer_frame_witness :
  (exists tr, serial_branch 4 (Some "17"%string) initial = Some (tt, mkGlobals 17 20, tr)) /\
  neo_brightness (mkGlobals 17 20) = neo_brightness initial /\
  (exists tr, touch1_branch 4 600 initial = Some (tt, mkGlobals 0 19, tr)) /\
  (exists tr, touch2_branch 4 600 initial = Some (tt, mkGlobals 0 21, tr)) /\
  x (mkGlobals 0 19) = x initial /\ x (mkGlobals 0 21) = x initial /\
  is_Some (serial (mkInput (Some "17"%string) 600 600)) /\
  loop 4 (mkInput None 500 500) initial = Some (tt, initial, []).
Proof.
  destruct (single_writer_frame 4 (mkInput (Some "17"%string) 600 600) initial)
    as (Hser & Ht1 & Ht2 & Hx & _).
  destruct (single_writer_frame 4 (mkInput None 500 500) initial)
    as (_ & _ & _ & _ & Hidle).
  split; [eexists; reflexivity|].
  split; [exact (Hser tt (mkGlobals 17 20) _ eq_refl)|].
  split; [eexists; reflexivity|]. split; [eexists; reflexivity|].
  split; [exact (Ht1 tt (mkGlobals 0 19) _ eq_refl)|].
  split; [exact (Ht2 tt (mkGlobals 0 21) _ eq_refl)|].
  split.
  - apply (Hx tt (mkGlobals 17 20) _ eq_refl). vm_compute. discriminate.
  - apply Hidle; [reflexivity | simpl; lia | simpl; lia].
Defined.

(** ** More concrete runs on a four-pixel board *)

Lemma code_round_trip_witness :
  0 <= 2 /\ 0 <= 1 < 8 /\
  bit_index (8 * 2 + 1) = 1 /\ rate_index (8 * 2 + 1) = 2 /\
  8 * rate_index (-5) + bit_index (-5) = -5.
Proof.
  assert (0 <= 2) as Hr by lia. assert (0 <= 1 < 8) as Hb by lia.
  destruct (code_round_trip 2 1 Hr Hb) as (H1 & H2 & H3).
  split; [exact Hr|]. split; [exact Hb|]. split; [exact H1|].
  split; [exact H2|exact (H3 (-5))].
Defined.

Lemma render_defined_iff_witness :
  is_Some (render 4 (mkGlobals 17 20)) /\
  ~ is_Some (render 4 (mkGlobals 21 20)) /\
  ~ is_Some (render 4 (mkGlobals 80 20)).
Proof.
  split; [|split].
  - apply (proj2 (render_defined_iff 4 17 20)).
    split; [lia|vm_compute; reflexivity].
  - intros H. apply (proj1 (render_defined_iff 4 21 20)) in H.
    destruct H as [_ H]. vm_compute in H. discriminate H.
  - intros H. apply (proj1 (render_defined_iff 4 80 20)) in H. lia.
Defined.

Lemma display_injective_witness :
  render 4 (mkGlobals 17 20) =
    Some (tt, mkGlobals 17 20, [SetPixelColor 0 red; Fill orange 1 4; Show]) /\
  render 4 (mkGlobals 17 5) =
    Some (tt, mkGlobals 17 5, [SetPixelColor 0 red; Fill orange 1 4; Show]) /\
  x (mkGlobals 17 20) = x (mkGlobals 17 5).
Proof.
  split; [reflexivity|]. split; [reflexivity|].
  exact (display_injective 4 (mkGlobals 17 20) (mkGlobals 17 5) tt tt _ _
           [SetPixelColor 0 red; Fill orange 1 4; Show] eq_refl eq_refl).
Defined.

Lemma loop_defined_iff_witness :
  is_Some (loop 4 (mkInput (Some "17"%string) 0 0) initial) /\
  ~ is_Some (loop 4 (mkInput (Some "5"%string) 0 0) initial).
Proof.
  split.
  - apply (proj2 (loop_defined_iff 4 (mkInput (Some "17"%string) 0 0) initial)).
    left. vm_compute. eexists. reflexivity.
  - intros H.
    apply (proj1 (loop_defined_iff 4 (mkInput (Some "5"%string) 0 0) initial)) in H.
    destruct H as [[ops H]|[H _]]; [vm_compute in H|]; discriminate H.
Defined.

Lemma loop_silent_iff_witness :
  loop 4 (mkInput None 500 0) initial = Some (tt, initial, []) /\
  (serial (mkInput None 500 0) = None /\
   touch1 (mkInput None 500 0) <= 500 /\ touch2 (mkInput None 500 0) <= 500).
Proof.
  split; [reflexivity|].
  exact (proj1 (loop_silent_iff 4 (mkInput None 500 0) initial tt initial []
                  eq_refl) eq_refl).
Defined.

Lemma touched_pass_ends_with_setBrightness_witness :
  in_range initial /\
  loop 4 (mkInput None 600 0) initial =
    Some (tt, mkGlobals 0 19,
          [SetPixelColor 0 black; Fill black 1 4; Show; SetBrightness 19]) /\
  last [SetPixelColor 0 black; Fill black 1 4; Show; SetBrightness 19] =
    Some (SetBrightness (neo_brightness (mkGlobals 0 19))).
Proof.
  assert (in_range initial) as Hg by (unfold in_range; simpl; lia).
  split; [exact Hg|]. split; [reflexivity|].
  apply (touched_pass_ends_with_setBrightness 4 (mkInput None 600 0) initial tt
           (mkGlobals 0 19) _ Hg eq_refl).
  left. simpl. lia.
Defined.

Lemma pass_paints_its_code_witness :
  loop 4 (mkInput (Some "17"%string) 600 0) initial =
    Some (tt, mkGlobals 17 19,
          [SetPixelColor 0 red; Fill orange 1 4; Show;
           SetPixelColor 0 red; Fill orange 1 4; Show; SetBrightness 19]) /\
  ((exists b, Fill orange 1 4 = SetBrightness b) \/
   (exists ops, paint 4 (x (mkGlobals 17 19)) = Some ops /\ Fill orange 1 4 ∈ ops)).
Proof.
  split; [reflexivity|].
  apply (pass_paints_its_code 4 (mkInput (Some "17"%string) 600 0) initial tt
           (mkGlobals 17 19)
           [SetPixelColor 0 red; Fill orange 1 4; Show;
            SetPixelColor 0 red; Fill orange 1 4; Show; SetBrightness 19]
           (Fill orange 1 4) eq_refl).
  apply list_elem_of_further, list_elem_of_here.
Defined.

Lemma hold_pad1_ramp_witness :
  in_range initial /\ is_Some (paint 4 (x initial)) /\ 500 < 600 /\ 0 <= 500 /\
  exists tr,
    passes 4 (replicate 25 (mkInput None 600 0)) initial = Some (tt, mkGlobals 0 0, tr).
Proof.
  assert (in_range initial) as Hg by (unfold in_range; simpl; lia).
  assert (is_Some (paint 4 (x initial))) as Hp by (vm_compute; eexists; reflexivity).
  assert (500 < 600) as H1 by lia. assert (0 <= 500) as H2 by lia.
  split; [exact Hg|]. split; [exact Hp|]. split; [exact H1|]. split; [exact H2|].
  exact (hold_pad1_ramp 4 25 600 0 initial Hg Hp H1 H2).
Defined.

Lemma hold_pad2_ramp_witness :
  in_range (mkGlobals 0 250) /\ is_Some (paint 4 (x (mkGlobals 0 250))) /\
  0 <= 500 /\ 500 < 600 /\
  exists tr,
    passes 4 (replicate 10 (mkInput None 0 600)) (mkGlobals 0 250) =
      Some (tt, mkGlobals 0 255, tr).
Proof.
  assert (in_range (mkGlobals 0 250)) as Hg by (unfold in_range; simpl; lia).
  assert (is_Some (paint 4 (x (mkGlobals 0 250)))) as Hp
    by (vm_compute; eexists; reflexivity).
  assert (0 <= 500) as H1 by lia. assert (500 < 600) as H2 by lia.
  split; [exact Hg|]. split; [exact Hp|]. split; [exact H1|]. split; [exact H2|].
  exact (hold_pad2_ramp 4 10 0 600 (mkGlobals 0 250) Hg Hp H1 H2).
Defined.

Lemma driver_level_tracks_brightness_witness :
  exists g' tr,
    power_on 4 [mkInput None 600 0; mkInput (Some "17"%string) 0 600;
                mkInput None 600 600; mkInput None 600 0] = Some (tt, g', tr) /\
    neo_brightness g' = 19 /\
    in_range g' /\
    brightness (drive_all (mkStrip [0; 0; 0; 0] 0 ([], 0)) tr) = neo_brightness g'.
Proof.
  destruct (power_on 4 [mkInput None 600 0; mkInput (Some "17"%string) 0 600;
                        mkInput None 600 600; mkInput None 600 0])
    as [[[u g'] tr]|] eqn:E; [|vm_compute in E; discriminate E].
  exists g', tr. destruct u. split; [reflexivity|]. split.
  - vm_compute in E. injection E as <- _. reflexivity.
  - exact (driver_level_tracks_brightness 4 _ tt g' tr
             (mkStrip [0; 0; 0; 0] 0 ([], 0)) E).
Defined.

Lemma shown_level_lags_witness :
  in_range initial /\
  loop 4 (mkInput None 600 0) initial =
    Some (tt, mkGlobals 0 19,
          [SetPixelColor 0 black; Fill black 1 4; Show; SetBrightness 19]) /\
  snd (leds (drive_all (mkStrip [0; 0; 0; 0] 20 ([0; 0; 0; 0], 20))
               [SetPixelColor 0 black; Fill black 1 4; Show; SetBrightness 19])) = 20 /\
  brightness (drive_all (mkStrip [0; 0; 0; 0] 20 ([0; 0; 0; 0], 20))
                [SetPixelColor 0 black; Fill black 1 4; Show; SetBrightness 19]) = 19.
Proof.
  assert (in_range initial) as Hg by (unfold in_range; simpl; lia).
  split; [exact Hg|]. split; [reflexivity|].
  apply (shown_level_lags 4 (mkInput None 600 0) initial
           (mkStrip [0; 0; 0; 0] 20 ([0; 0; 0; 0], 20)) tt (mkGlobals 0 19)
           [SetPixelColor 0 black; Fill black 1 4; Show; SetBrightness 19]
           Hg eq_refl).
  left. simpl. lia.
Defined.

Lemma strip_shows_current_code_witness :
  0 < 4 /\
  pixels (mkStrip [black; black; black; black] 0 ([], 0)) =
    replicate (Z.to_nat 4) black /\
  exists g' tr,
    power_on 4 [mkInput (Some "17"%string) 0 0; mkInput None 600 0] =
      Some (tt, g', tr) /\
    pixels (drive_all (mkStrip [black; black; black; black] 0 ([], 0)) tr) =
      [red; orange; orange; orange] /\
    painting 4 (x g') =
      Some (pixels (drive_all (mkStrip [black; black; black; black] 0 ([], 0)) tr)) /\
    fst (leds (drive_all (mkStrip [black; black; black; black] 0 ([], 0)) tr)) =
      pixels (drive_all (mkStrip [black; black; black; black] 0 ([], 0)) tr).
Proof.
  assert (0 < 4) as Hn by lia.
  split; [exact Hn|]. split; [reflexivity|].
  destruct (power_on 4 [mkInput (Some "17"%string) 0 0; mkInput None 600 0])
    as [[[u g'] tr]|] eqn:E; [|vm_compute in E; discriminate E].
  exists g', tr. destruct u. split; [reflexivity|]. split.
  - vm_compute in E. injection E as _ <-. reflexivity.
  - exact (strip_shows_current_code 4 _ tt g' tr
             (mkStrip [black; black; black; black] 0 ([], 0)) Hn eq_refl E).
Defined.
